(** * Choreograph: the clock of a timeline item and the Output/Motion link

    A shallow embedding of [src/choreograph/TimelineItem.cpp] and of the
    connection protocol exercised by [tests/Choreograph_test.cpp].

    - [TimeOps] is the arithmetic of the [Time] typedef.  The typedef lives
      in [TimelineItem.h]; the development is parametric in it and offers
      two instances: IEEE single precision ([binary32], what the [0.0f]
      literals of the source indicate) and exact rationals ([exact]).
    - Section [Item] embeds [step], [jumpTo], [isFinished], [resetTime].
    - Section [Link] models outputs and motions as a store of objects
      addressed by identifiers, with the back-references of both sides.
    - The test cases are replayed on that store, on rationals. *)

From Stdlib Require Import ZArith QArith Qcanon Qround Lia.
From Stdlib Require Import Floats.SpecFloat.
From stdpp Require Import base option list gmap.

Set Default Proof Using "Type*".

(** ** Arithmetic of [Time] *)

Class TimeOps (Time : Type) := {
  Tzero : Time;                         (* the literal 0.0f *)
  Tadd : Time -> Time -> Time;          (* a + b *)
  Tmul : Time -> Time -> Time;          (* a * b *)
  Tltb : Time -> Time -> bool;          (* a < b *)
  Tleb : Time -> Time -> bool;          (* a <= b; a >= b is [Tleb b a] *)
}.

(** The one order law the direction tests need: [a < b] excludes [b <= a].
    It holds for rationals and for IEEE comparisons alike. *)
Class TimeOrder (Time : Type) `{TimeOps Time} : Prop := {
  Tlt_not_le : forall a b : Time, Tltb a b = true -> Tleb b a = false;
}.

(** Arithmetic without rounding. *)
Class TimeExact (Time : Type) `{TimeOps Time} : Prop := {
  Tadd_assoc : forall a b c : Time, Tadd (Tadd a b) c = Tadd a (Tadd b c);
  Tmul_add_distr_r :
    forall a b c : Time, Tmul (Tadd a b) c = Tadd (Tmul a c) (Tmul b c);
}.

(** ** The clock-driven item *)

Section Item.
Context {Time : Type} `{TimeOps Time}.

(** The data members of [TimelineItem] the source file reads and writes.
    [_duration] stands for what the virtual [getDuration()] returns. *)
Record TimelineItem := mkItem {
  _time : Time;
  _previous_time : Time;
  _speed : Time;
  _duration : Time;
}.

Definition set_time (t : Time) (it : TimelineItem) : TimelineItem :=
  mkItem t (_previous_time it) (_speed it) (_duration it).

Definition set_previous_time (t : Time) (it : TimelineItem) : TimelineItem :=
  mkItem (_time it) t (_speed it) (_duration it).

(** Modelled from the spec: the accessors [time()], [previousTime()] and
    [getDuration()] are declared in [TimelineItem.h]; the spec's data model
    has them return the fields [time], [previousTime] and [duration]. *)
Definition time (it : TimelineItem) : Time := _time it.
Definition previousTime (it : TimelineItem) : Time := _previous_time it.
Definition getDuration (it : TimelineItem) : Time := _duration it.

(** Modelled from the spec: [forward()] and [backward()] are declared in
    [TimelineItem.h]; the direction is derived from the sign of [speed],
    forward being [speed >= 0] and backward [speed < 0]. *)
Definition forward (it : TimelineItem) : bool := Tleb Tzero (_speed it).
Definition backward (it : TimelineItem) : bool := Tltb (_speed it) Tzero.

(** Modelled from the spec: [getEndTime()] is declared in
    [TimelineItem.h]; the spec describes the value a backward item is
    reset to as the duration, the end of the range. *)
Definition getEndTime (it : TimelineItem) : Time := getDuration it.

(** [update()] is virtual: it reads the item and rewrites the properties
    the item animates.  Those properties are the world [W]. *)
Section Clock.
Context {W : Type} (update : TimelineItem -> W -> W).

(** [TimelineItem::step] *)
Definition step (dt : Time) (s : TimelineItem * W) : TimelineItem * W :=
  let it := set_time (Tadd (_time s.1) (Tmul dt (_speed s.1))) s.1 in
  let w := update it s.2 in
  (set_previous_time (_time it) it, w).

(** [TimelineItem::jumpTo] *)
Definition jumpTo (t : Time) (s : TimelineItem * W) : TimelineItem * W :=
  let it := set_time t s.1 in
  let w := update it s.2 in
  (set_previous_time (_time it) it, w).
End Clock.

(** [TimelineItem::isFinished] *)
Definition isFinished (it : TimelineItem) : bool :=
  if backward it then Tleb (time it) Tzero
  else Tleb (getDuration it) (time it).

(** [TimelineItem::resetTime] *)
Definition resetTime (it : TimelineItem) : TimelineItem :=
  if forward it then set_time Tzero (set_previous_time Tzero it)
  else let e := getEndTime it in set_time e (set_previous_time e it).

(** Modelled from the spec: the [update()] of a motion recomputes the
    output from the value producer, a pure function of the item's time. *)
Definition produce {Value : Type} (getValue : Time -> Value)
    (it : TimelineItem) (_ : Value) : Value :=
  getValue (time it).

End Item.

Arguments TimelineItem Time : clear implicits.

(** ** Two arithmetics for [Time] *)

(** IEEE 754 single precision: 24 bits of mantissa, infinities at 2^128. *)
#[export] Instance binary32 : TimeOps spec_float := {|
  Tzero := S754_zero false;
  Tadd := SFadd 24 128;
  Tmul := SFmul 24 128;
  Tltb := SFltb;
  Tleb := SFleb;
|}.

(** Rationals in lowest terms: no rounding. *)
#[export] Instance exact : TimeOps Qc := {|
  Tzero := 0%Qc;
  Tadd := Qcplus;
  Tmul := Qcmult;
  Tltb := fun a b => negb (Qle_bool b a);
  Tleb := fun a b => Qle_bool a b;
|}.

(** ** Outputs, motions and the link between them *)

Section Link.
Context {Time : Type} `{TimeOps Time} {Value : Type}.

(** Modelled from the spec: [Output<T>] is declared in [Output.hpp], which
    is not among the sources.  A slot holds the last written [value] and
    an optional back-link [connection] to the motion that drives it. *)
Record Output := mkOutput {
  value : Value;
  connection : option nat;
}.

(** Modelled from the spec: [Motion<T>] is declared in [Motion.hpp], which
    is not among the sources.  A motion owns its clock [item], shares the
    pure value [producer] and refers to at most one slot, its [target]. *)
Record Motion := mkMotion {
  item : TimelineItem Time;
  producer : Time -> Value;
  target : option nat;
}.

(** The objects alive at one moment, by address.  A destroyed object is
    absent from its map. *)
Record Store := mkStore {
  outputs : gmap nat Output;
  motions : gmap nat Motion;
}.

Definition set_connection (c : option nat) (x : Output) : Output :=
  mkOutput (value x) c.
Definition set_value (v : Value) (x : Output) : Output :=
  mkOutput v (connection x).
Definition set_target (t : option nat) (mo : Motion) : Motion :=
  mkMotion (item mo) (producer mo) t.
Definition set_item (it : TimelineItem Time) (mo : Motion) : Motion :=
  mkMotion it (producer mo) (target mo).

Definition on_outputs (f : gmap nat Output -> gmap nat Output)
    (st : Store) : Store :=
  mkStore (f (outputs st)) (motions st).
Definition on_motions (f : gmap nat Motion -> gmap nat Motion)
    (st : Store) : Store :=
  mkStore (outputs st) (f (motions st)).

(** Modelled from the spec: [isConnected()] of a slot and of a motion
    report whether the respective link is set. *)
Definition Output_isConnected (st : Store) (o : nat) : bool :=
  match outputs st !! o with
  | Some x => bool_decide (is_Some (connection x))
  | None => false
  end.

Definition Motion_isConnected (st : Store) (m : nat) : bool :=
  match motions st !! m with
  | Some mo => bool_decide (is_Some (target mo))
  | None => false
  end.

(** The motion on the other end of a slot's link loses its target. *)
Definition unlink_motion (c : option nat) (st : Store) : Store :=
  match c with
  | Some m => on_motions (alter (set_target None) m) st
  | None => st
  end.

(** The slot on the other end of a motion's link loses its connection. *)
Definition unlink_output (t : option nat) (st : Store) : Store :=
  match t with
  | Some o => on_outputs (alter (set_connection None) o) st
  | None => st
  end.

(** Modelled from the spec: a slot enters the store disconnected
    ([Output<T> o( v )]). *)
Definition Output_new (o : nat) (v : Value) (st : Store) : Store :=
  on_outputs (insert o (mkOutput v None)) st.

(** Modelled from the spec (slot destruction while connected): the
    driving motion's reference becomes null, then the slot is gone. *)
Definition Output_destroy (o : nat) (st : Store) : Store :=
  match outputs st !! o with
  | Some x => on_outputs (delete o) (unlink_motion (connection x) st)
  | None => st
  end.

(** Modelled from the spec (motion destruction): if still connected the
    motion clears its target slot's connection, then releases itself. *)
Definition Motion_destroy (m : nat) (st : Store) : Store :=
  match motions st !! m with
  | Some mo => on_motions (delete m) (unlink_output (target mo) st)
  | None => st
  end.

(** Modelled from the spec (binding and reconnecting): a motion built on
    slot [o] first severs the connection [o] already has, then links
    both ways.  [Motion<T> m( &o, sequence )] and [timeline.move( &o,
    sequence )] of the tests are this constructor. *)
Definition Motion_new (m o : nat) (it : TimelineItem Time)
    (src : Time -> Value) (st : Store) : Store :=
  match outputs st !! o with
  | Some x =>
      let st := unlink_motion (connection x) st in
      let st := on_outputs (alter (set_connection (Some m)) o) st in
      on_motions (insert m (mkMotion it src (Some o))) st
  | None => on_motions (insert m (mkMotion it src None)) st
  end.

(** The slot [dst] takes over value and connection of [src]: what [dst]
    was connected to is severed, the motion driving [src] is repointed to
    [dst], and [src] is left disconnected with its value. *)
Definition Output_take (dst src : nat) (st : Store) : Store :=
  if decide (dst = src) then st else
  match outputs st !! src, outputs st !! dst with
  | Some xs, Some xd =>
      let st := unlink_motion (connection xd) st in
      let st := on_outputs (insert dst (mkOutput (value xs) (connection xs))) st in
      let st := on_outputs (alter (set_connection None) src) st in
      match connection xs with
      | Some m => on_motions (alter (set_target (Some dst)) m) st
      | None => st
      end
  | _, _ => st
  end.

(** Modelled from the spec (slot move, [dst = std::move( src )]): the new
    location inherits connection and value, the moved-from slot is a
    disconnected shell, the motion is repointed. *)
Definition Output_move (dst src : nat) (st : Store) : Store :=
  Output_take dst src st.

(** Modelled from the spec: the copy assignment [dst = src] of [Output<T>]
    is declared in [Output.hpp], which is not among the sources.  The
    spec's wording for it is [Output_copy_spec] below.  The repository's
    tests "Copy assignment brings motion along." and "Vector of outputs
    can be copied." require the motion to write into the copy and to
    leave the original alone afterwards; [Output_copy] is the behaviour
    those tests pin down: the connection follows the copy, as it does
    for a move. *)
Definition Output_copy (dst src : nat) (st : Store) : Store :=
  Output_take dst src st.

(** Modelled from the spec (slot copy, in the spec's words): the
    destination receives the current value but starts disconnected; the
    source keeps its connection. *)
Definition Output_copy_spec (dst src : nat) (st : Store) : Store :=
  if decide (dst = src) then st else
  match outputs st !! src, outputs st !! dst with
  | Some xs, Some xd =>
      let st := unlink_motion (connection xd) st in
      on_outputs (insert dst (mkOutput (value xs) None)) st
  | _, _ => st
  end.

(** Modelled from the spec: [Motion<T>::update()] recomputes the value
    from the producer at the item's time and writes it into the target
    slot; a disconnected motion writes nothing.  The world of this
    [update] is [option Store]: [None] records that the motion itself was
    gone or that it wrote through a reference to a slot that no longer
    exists. *)
Definition Motion_update (m : nat) (it : TimelineItem Time)
    (w : option Store) : option Store :=
  st ← w;
  mo ← motions st !! m;
  match target mo with
  | None => Some st
  | Some o =>
      x ← outputs st !! o;
      Some (on_outputs (insert o (set_value (producer mo (time it)) x)) st)
  end.

(** Runs a clock operation of [TimelineItem] on the item of motion [m],
    with [Motion_update] as the virtual [update()]. *)
Definition Motion_clock
    (op : TimelineItem Time * option Store -> TimelineItem Time * option Store)
    (m : nat) (st : Store) : option Store :=
  mo ← motions st !! m;
  let r := op (item mo, Some st) in
  st' ← r.2;
  Some (on_motions (alter (set_item r.1) m) st').

Definition Motion_step (dt : Time) (m : nat) (st : Store) : option Store :=
  Motion_clock (step (Motion_update m) dt) m st.

(** Modelled from the spec: [skipTo( t )] of the tests is the jump of the
    item to [t]. *)
Definition Motion_skipTo (t : Time) (m : nat) (st : Store) : option Store :=
  Motion_clock (jumpTo (Motion_update m) t) m st.

(** Modelled from the spec: [Timeline::step] advances every owned motion
    by [dt] in insertion order, then removes the motions whose target slot
    is gone.  A finished motion stays.  The timeline is the list of the
    motions it owns; a reaped motion is destroyed. *)
Definition Timeline_step (dt : Time) (tl : list nat) (st : Store)
    : option (list nat * Store) :=
  st' ← foldl (fun w m => w ≫= Motion_step dt m) (Some st) tl;
  let keep := List.filter (Motion_isConnected st') tl in
  let dead := List.filter (fun m => negb (Motion_isConnected st' m)) tl in
  Some (keep, foldr Motion_destroy st' dead).

Definition Timeline_size (tl : list nat) : nat := length tl.
Definition Timeline_empty (tl : list nat) : bool := bool_decide (tl = []).

(** The invariant of the data model: the two links of a connection agree,
    and neither points at a destroyed object. *)
Definition linked (st : Store) : Prop :=
  (forall o x m, outputs st !! o = Some x -> connection x = Some m ->
     exists mo, motions st !! m = Some mo /\ target mo = Some o) /\
  (forall m mo o, motions st !! m = Some mo -> target mo = Some o ->
     exists x, outputs st !! o = Some x /\ connection x = Some m).

(** Two stores with the same links: they may differ in clocks and in
    values only. *)
Definition same_links (st st' : Store) : Prop :=
  (forall m, target <$> motions st' !! m = target <$> motions st !! m) /\
  (forall o, connection <$> outputs st' !! o
             = connection <$> outputs st !! o).

(** Every motion a timeline owns is alive. *)
Definition owned (tl : list nat) (st : Store) : Prop :=
  forall m, m ∈ tl -> is_Some (motions st !! m).

End Link.

Arguments Output Value : clear implicits.
Arguments Motion Time Value : clear implicits.
Arguments Store Time Value : clear implicits.

(** ** The test cases of [Choreograph_test.cpp], replayed *)

(** Modelled from the spec: [Sequence<T>::getValue] is declared in
    [Sequence.hpp], which is not among the sources.  A sequence that starts
    at [from] and ramps to [to] over [dur] seconds evaluates linearly inside
    the ramp and clamps to the boundary values outside of it. *)
Definition ramp (from to dur t : Qc) : Qc :=
  if Qle_bool t 0 then from
  else if Qle_bool dur t then to
  else (from + (to - from) * (t / dur))%Qc.

(** [sequence->rampTo( 10.0f, 2.0f )] on a sequence starting at [0.0f]. *)
Definition sequence : Qc -> Qc := ramp 0 (Q2Qc 10) (Q2Qc 2).

(** A fresh item: at time zero, playing forward at speed one. *)
Definition fresh_item (dur : Qc) : TimelineItem Qc := mkItem 0%Qc 0%Qc 1%Qc dur.

Definition no_objects : Store Qc Qc := mkStore ∅ ∅.

(** The value of slot [o], when the run did not fail and [o] is alive. *)
Definition read (w : option (Store Qc Qc)) (o : nat) : option Q :=
  st ← w; x ← outputs st !! o; Some (this (value x)).

(** "Copy assignment brings motion along.": [base] is slot 0 holding 1,
    [copy] is slot 1 holding 0, [motion] is motion 0 on [base]. *)
Definition two_slots : Store Qc Qc :=
  Motion_new 0 0 (fresh_item (Q2Qc 2)) sequence
    (Output_new 1 0%Qc (Output_new 0 1%Qc no_objects)).

(** "Output falling out of scope disconnects": slot 0 is [temp], the
    timeline's motion 0 ramps it to 5 over one second. *)
Definition one_slot : Store Qc Qc :=
  Motion_new 0 0 (fresh_item 1%Qc) (ramp 0 (Q2Qc 5) 1)
    (Output_new 0 0%Qc no_objects).

(** [vector<Output<float>> outputs( n, 0.0f )] at addresses [0 .. n-1],
    each handed to the timeline with [timeline.move( &output, sequence )];
    the motion of slot [i] is motion [i]. *)
Definition n_slots (n : nat) : Store Qc Qc :=
  foldl (fun st i => Motion_new i i (fresh_item (Q2Qc 2)) sequence st)
    (foldl (fun st i => Output_new i 0%Qc st) no_objects (seq 0 n))
    (seq 0 n).

(** [copy = outputs] on an empty [copy]: the vector builds element [i]
    anew, at address [n + i], as a copy of element [i].  (The move
    assignment [copy = std::move( outputs )] builds nothing: [copy] adopts
    the storage of [outputs], and the slots stay at their addresses.) *)
Definition vector_assign
    (assign : nat -> nat -> Store Qc Qc -> Store Qc Qc) (n : nat)
    (st : Store Qc Qc) : Store Qc Qc :=
  foldl (fun st i => assign (n + i) i (Output_new (n + i) 0%Qc st))
    st (seq 0 n).

(** The values of the slots at addresses [from .. from + n - 1] after the
    timeline of motions [0 .. n-1] stepped by [dt]. *)
Definition values_after_step (dt : Qc) (n from : nat) (st : Store Qc Qc)
    : list (option Q) :=
  map (read (snd <$> Timeline_step dt (seq 0 n) st)) (seq from n).

(** Modelled from the spec: [getTimeWrapped] is declared in [Sequence.hpp],
    which is not among the sources.  For a real elapsed time [t] and a
    positive [duration] the wrapped time is [t mod duration]: [t] less the
    whole number of durations that fit below it. *)
Definition wrapped (duration t : Qc) : Qc :=
  (t - Q2Qc (inject_Z (Qfloor (t / duration)%Qc)) * duration)%Qc.

(** Single-precision constants: 1, 2 and 2^24 (mantissa 2^23). *)
Definition f32_one : spec_float := S754_finite false 8388608 (-23).
Definition f32_two : spec_float := S754_finite false 8388608 (-22).
Definition f32_2p24 : spec_float := S754_finite false 8388608 1.

(** The single-precision values 3 and 4. *)
Definition f32_three : spec_float := S754_finite false 12582912 (-22).
Definition f32_four : spec_float := S754_finite false 8388608 (-21).

(** An item sixteen million seconds in, playing forward at speed one. *)
Definition late_item : TimelineItem spec_float :=
  mkItem f32_2p24 f32_2p24 f32_one f32_two.

(** The single-precision values nearest to 0.1 and 0.5, and an item a
    tenth of a second in, playing forward at speed one. *)
Definition f32_tenth : spec_float := S754_finite false 13421773 (-27).
Definition f32_half : spec_float := S754_finite false 8388608 (-24).
Definition early_item : TimelineItem spec_float :=
  mkItem f32_tenth f32_tenth f32_one f32_two.

(** IEEE 754 double precision, should [Time] be a [double]: 53 bits of
    mantissa, infinities at 2^1024; with the constants 1, 2 and 2^53. *)
Definition binary64 : TimeOps spec_float := {|
  Tzero := S754_zero false;
  Tadd := SFadd 53 1024;
  Tmul := SFmul 53 1024;
  Tltb := SFltb;
  Tleb := SFleb;
|}.
Definition f64_one : spec_float := S754_finite false 4503599627370496 (-52).
Definition f64_two : spec_float := S754_finite false 4503599627370496 (-51).
Definition f64_2p53 : spec_float := S754_finite false 4503599627370496 1.

(** ** Runs of clock calls *)

(** The calls that move the clock of an item, and a run of them in order.
    [resetTime()] does not call [update()]. *)
Inductive ClockOp (Time : Type) : Type :=
  | Step (dt : Time)
  | JumpTo (t : Time)
  | Reset.
Arguments Step {Time} dt.
Arguments JumpTo {Time} t.
Arguments Reset {Time}.

Definition call {Time : Type} `{TimeOps Time} {W : Type}
    (update : TimelineItem Time -> W -> W) (s : TimelineItem Time * W)
    (op : ClockOp Time) : TimelineItem Time * W :=
  match op with
  | Step dt => step update dt s
  | JumpTo t => jumpTo update t s
  | Reset => (resetTime s.1, s.2)
  end.

Definition run {Time : Type} `{TimeOps Time} {W : Type}
    (update : TimelineItem Time -> W -> W) (ops : list (ClockOp Time))
    (s : TimelineItem Time * W) : TimelineItem Time * W :=
  foldl (call update) s ops.

(** [step( dt )] called once per frame, with the frame times [dts] in
    order: what a caller driving the item frame by frame does. *)
Definition steps {Time : Type} `{TimeOps Time} {W : Type}
    (update : TimelineItem Time -> W -> W) (dts : list Time)
    (s : TimelineItem Time * W) : TimelineItem Time * W :=
  run update (map Step dts) s.

(** The single-precision values that are numbers of finite size: zeros and
    finite non-zero values, as opposed to infinities and NaN. *)
Definition f32_finite (x : spec_float) : bool :=
  match x with
  | S754_zero _ | S754_finite _ _ _ => true
  | S754_infinity _ | S754_nan => false
  end.

(** * Properties *)

(** ** The two arithmetics *)

Lemma SFcompare_antisym (a b : spec_float) :
  SFcompare b a = CompOpp <$> SFcompare a b.
Proof.
  destruct a as [sa|sa| |sa ma ea], b as [sb|sb| |sb mb eb]; cbn;
    try reflexivity; try (destruct sa; reflexivity);
    try (destruct sb; reflexivity);
    try (destruct sa, sb; reflexivity).
  f_equal. rewrite (Z.compare_antisym ea eb).
  change (PosDef.Pos.compare_cont Eq mb ma)
    with (Pos.compare_cont (CompOpp Eq) mb ma).
  rewrite <- (Pos.compare_cont_antisym ma mb Eq).
  destruct sa, sb; cbn; try reflexivity;
    destruct (ea ?= eb)%Z; cbn; try reflexivity;
    destruct (Pos.compare_cont Eq ma mb); reflexivity.
Qed.

#[export] Instance binary32_order : TimeOrder spec_float.
Proof.
  split. intros a b. cbn. unfold SFltb, SFleb.
  rewrite (SFcompare_antisym a b).
  destruct (SFcompare a b) as [[]|]; cbn; congruence.
Qed.

#[export] Instance exact_order : TimeOrder Qc.
Proof.
  split. intros a b. cbn. destruct (Qle_bool b a); cbn; congruence.
Qed.

#[export] Instance exact_exact : TimeExact Qc.
Proof.
  split; intros a b c; cbn.
  - symmetry. apply Qcplus_assoc.
  - apply Qcmult_plus_distr_l.
Qed.

(** Single precision rounds: 2^24 + 1 is 2^24 again. *)
Lemma binary32_rounds : ~ TimeExact spec_float.
Proof.
  intros [Hassoc _].
  specialize (Hassoc f32_2p24 f32_one f32_one). vm_compute in Hassoc.
  discriminate Hassoc.
Qed.

(** ** The clock *)

Section ItemFacts.
Context {Time : Type} `{TimeOps Time}.
Implicit Types (it : TimelineItem Time) (dt t : Time).

Lemma forward_not_backward `{!TimeOrder Time} it :
  forward it = true -> backward it = false.
Proof.
  unfold forward, backward. intros Hf.
  destruct (Tltb (_speed it) Tzero) eqn:Hb; [|reflexivity].
  apply Tlt_not_le in Hb. congruence.
Qed.

Lemma backward_not_forward `{!TimeOrder Time} it :
  backward it = true -> forward it = false.
Proof. unfold forward, backward. apply Tlt_not_le. Qed.

(** C3: right after [step( dt )] and right after [jumpTo( t )] the
    previous time equals the time, whatever the item, the argument and
    the virtual [update()]. *)
Theorem step_jumpTo_sync {W} (update : TimelineItem Time -> W -> W)
    (s : TimelineItem Time * W) (dt t : Time) :
  previousTime (step update dt s).1 = time (step update dt s).1 /\
  previousTime (jumpTo update t s).1 = time (jumpTo update t s).1.
Proof. split; reflexivity. Qed.

(** C10: neither [step( dt )] nor [jumpTo( t )] touches speed or
    duration; the item changes in [time] and [previousTime] only, and the
    rest of the change is what [update()] computes from the new time. *)
Theorem step_jumpTo_frame {W} (update : TimelineItem Time -> W -> W)
    (s : TimelineItem Time * W) (dt t : Time) :
  (_speed (step update dt s).1 = _speed s.1 /\
   getDuration (step update dt s).1 = getDuration s.1 /\
   _speed (jumpTo update t s).1 = _speed s.1 /\
   getDuration (jumpTo update t s).1 = getDuration s.1) /\
  (let t' := Tadd (_time s.1) (Tmul dt (_speed s.1)) in
   step update dt s =
     (mkItem t' t' (_speed s.1) (_duration s.1),
      update (set_time t' s.1) s.2)) /\
  jumpTo update t s =
    (mkItem t t (_speed s.1) (_duration s.1), update (set_time t s.1) s.2).
Proof. repeat split. Qed.

(** C5: a forward item ([speed >= 0]) is finished exactly when
    [time >= duration], a backward one ([speed < 0]) exactly when
    [time <= 0]; after [jumpTo( t )] the same rule holds at [t], so a
    forward item is finished at [t == duration] and a backward one at
    [t == 0]. *)
Theorem isFinished_direction `{!TimeOrder Time} {W}
    (update : TimelineItem Time -> W -> W) it (w : W) :
  (Tleb Tzero (_speed it) = true ->
     isFinished it = Tleb (getDuration it) (time it) /\
     (forall t, isFinished (jumpTo update t (it, w)).1
                = Tleb (getDuration it) t) /\
     (Tleb (getDuration it) (getDuration it) = true ->
        isFinished (jumpTo update (getDuration it) (it, w)).1 = true)) /\
  (Tltb (_speed it) Tzero = true ->
     isFinished it = Tleb (time it) Tzero /\
     (forall t, isFinished (jumpTo update t (it, w)).1 = Tleb t Tzero) /\
     (Tleb Tzero Tzero = true ->
        isFinished (jumpTo update Tzero (it, w)).1 = true)).
Proof.
  split.
  - intros Hf. pose proof (forward_not_backward it Hf) as Hb.
    unfold isFinished, backward in *. cbn. rewrite Hb. auto.
  - intros Hb. unfold isFinished, backward. cbn. rewrite Hb. auto.
Qed.

(** C9: [resetTime()] puts a forward item at time zero and a backward
    item at the duration, the previous time along with the time. *)
Theorem resetTime_start `{!TimeOrder Time} it :
  (Tleb Tzero (_speed it) = true ->
     time (resetTime it) = Tzero /\ previousTime (resetTime it) = Tzero) /\
  (Tltb (_speed it) Tzero = true ->
     time (resetTime it) = getDuration it /\
     previousTime (resetTime it) = getDuration it).
Proof.
  split.
  - intros Hf. unfold resetTime, forward. rewrite Hf. split; reflexivity.
  - intros Hb. apply (backward_not_forward it) in Hb.
    unfold resetTime. rewrite Hb. split; reflexivity.
Qed.

(** [resetTime()] leaves speed and duration alone. *)
Lemma resetTime_frame it :
  _speed (resetTime it) = _speed it /\
  getDuration (resetTime it) = getDuration it.
Proof. unfold resetTime. destruct (forward it); split; reflexivity. Qed.

(** C4, as far as the arithmetic of [Time] carries it: for
    [dt1 + dt2 == dt], [step( dt1 )] followed by [step( dt2 )] leaves the
    item (time, previous time, speed, duration) and the output value as one
    [step( dt )] does exactly when the two computations of the time agree,
    [(time + dt1 * speed) + dt2 * speed == time + dt * speed].  They agree
    whenever, at these operands, the product distributes,
    [dt * speed == dt1 * speed + dt2 * speed], and the sum associates,
    [(time + dt1 * speed) + dt2 * speed
     == time + (dt1 * speed + dt2 * speed)]; in an arithmetic without
    rounding that is every input. *)
Theorem step_additive {Value : Type}
    (getValue : Time -> Value) (s : TimelineItem Time * Value)
    (dt1 dt2 dt : Time) :
  Tadd dt1 dt2 = dt ->
  (step (produce getValue) dt2 (step (produce getValue) dt1 s)
     = step (produce getValue) dt s
   <-> Tadd (Tadd (_time s.1) (Tmul dt1 (_speed s.1))) (Tmul dt2 (_speed s.1))
       = Tadd (_time s.1) (Tmul dt (_speed s.1))) /\
  (Tmul dt (_speed s.1)
     = Tadd (Tmul dt1 (_speed s.1)) (Tmul dt2 (_speed s.1)) ->
   Tadd (Tadd (_time s.1) (Tmul dt1 (_speed s.1))) (Tmul dt2 (_speed s.1))
     = Tadd (_time s.1)
         (Tadd (Tmul dt1 (_speed s.1)) (Tmul dt2 (_speed s.1))) ->
   step (produce getValue) dt2 (step (produce getValue) dt1 s)
     = step (produce getValue) dt s) /\
  (TimeExact Time ->
   step (produce getValue) dt2 (step (produce getValue) dt1 s)
     = step (produce getValue) dt s).
Proof.
  intros Hdt. destruct s as [[t p sp d] v].
  assert (Hiff :
    step (produce getValue) dt2
      (step (produce getValue) dt1 (mkItem t p sp d, v))
      = step (produce getValue) dt (mkItem t p sp d, v)
    <-> Tadd (Tadd t (Tmul dt1 sp)) (Tmul dt2 sp) = Tadd t (Tmul dt sp)).
  { unfold step, produce, time. cbn. split.
    - intros Heq. exact (f_equal (fun r => _time r.1) Heq).
    - intros ->. reflexivity. }
  split; [exact Hiff|]. cbn [fst _time _speed]. split.
  - intros Hdistr Hassoc. apply Hiff. rewrite Hdistr. exact Hassoc.
  - intros Hexact. apply Hiff. subst dt.
    rewrite Tmul_add_distr_r. apply Tadd_assoc.
Qed.

(** A step by zero time at a time that absorbs the zero product re-queries
    the producer without moving the clock. *)
Lemma step_zero {Value : Type} (getValue : Time -> Value)
    (s : TimelineItem Time * Value) dt :
  Tadd (_time s.1) (Tmul dt (_speed s.1)) = _time s.1 ->
  time (step (produce getValue) dt s).1 = time s.1 /\
  (step (produce getValue) dt s).2 = getValue (time s.1).
Proof. intros Hz. unfold step, produce, time. cbn. rewrite Hz. auto. Qed.

End ItemFacts.

(** [step_additive] at work.  In single precision at time 2^24 and speed
    1 the steps 1 and 3 both round, and yet the two laws hold at these
    operands: the result is that of one step of 4.  On rationals every
    input qualifies, here two half-second steps against one step of a
    second. *)
Lemma step_additive_witness :
  step (produce id) f32_three (step (produce id) f32_one (late_item, f32_2p24))
    = step (produce id) f32_four (late_item, f32_2p24) /\
  step (produce sequence) (Q2Qc (1 # 2))
    (step (produce sequence) (Q2Qc (1 # 2)) (fresh_item (Q2Qc 2), 0%Qc))
    = step (produce sequence) 1%Qc (fresh_item (Q2Qc 2), 0%Qc).
Proof.
  split.
  - destruct (step_additive id (late_item, f32_2p24)
                f32_one f32_three f32_four) as (_ & Hlaws & _);
      [reflexivity|].
    apply Hlaws; reflexivity.
  - destruct (step_additive sequence (fresh_item (Q2Qc 2), 0%Qc)
                (Q2Qc (1 # 2)) (Q2Qc (1 # 2)) 1%Qc) as (_ & _ & Hexact);
      [apply Qc_is_canon; reflexivity|].
    apply Hexact. exact exact_exact.
Defined.

(** C4 as stated fails in single precision: at time 2^24 and speed 1, two
    steps of 1 leave the time where it is (2^24 + 1 rounds back to 2^24)
    while one step of 2 = 1 + 1 moves it to 2^24 + 2; the output values
    differ with the times. *)
Lemma step_not_additive_binary32 :
  Tadd f32_one f32_one = f32_two /\
  time (step (produce id) f32_one
          (step (produce id) f32_one (late_item, f32_2p24))).1
    <> time (step (produce id) f32_two (late_item, f32_2p24)).1 /\
  (step (produce id) f32_one
     (step (produce id) f32_one (late_item, f32_2p24))).2
    <> (step (produce id) f32_two (late_item, f32_2p24)).2.
Proof. vm_compute. repeat split; discriminate. Qed.

(** The same at everyday magnitudes: from time 0.1 at speed 1, steps of
    0.1 and 0.5 end one unit in the last place below a single step of
    their sum. *)
Lemma step_not_additive_early :
  time (step (produce id) f32_half
          (step (produce id) f32_tenth (early_item, f32_tenth))).1
    = S754_finite false 11744051 (-24) /\
  time (step (produce id) (Tadd f32_tenth f32_half)
          (early_item, f32_tenth)).1
    = S754_finite false 11744052 (-24).
Proof. vm_compute. split; reflexivity. Qed.

(** Double precision rounds in the same way at 2^53. *)
Lemma step_not_additive_binary64 :
  @Tadd _ binary64 f64_one f64_one = f64_two /\
  time (@step _ binary64 _ (produce id) f64_one
          (@step _ binary64 _ (produce id) f64_one
             (mkItem f64_2p53 f64_2p53 f64_one f64_two, f64_2p53))).1
    <> time (@step _ binary64 _ (produce id) f64_two
               (mkItem f64_2p53 f64_2p53 f64_one f64_two, f64_2p53)).1.
Proof. vm_compute. split; [reflexivity|discriminate]. Qed.

Lemma isFinished_direction_witness :
  isFinished (fresh_item (Q2Qc 2)) = false /\
  isFinished (jumpTo (produce sequence) (Q2Qc 2) (fresh_item (Q2Qc 2), 0%Qc)).1
    = true.
Proof.
  destruct (isFinished_direction (produce sequence) (fresh_item (Q2Qc 2)) 0%Qc)
    as [Hf _].
  destruct Hf as (Hnow & _ & Hend); [reflexivity|].
  split; [rewrite Hnow; reflexivity | apply Hend; reflexivity].
Defined.

Lemma resetTime_start_witness :
  time (resetTime (mkItem 1%Qc 1%Qc (Q2Qc (-1)) (Q2Qc 2))) = Q2Qc 2 /\
  previousTime (resetTime (mkItem 1%Qc 1%Qc (Q2Qc (-1)) (Q2Qc 2))) = Q2Qc 2.
Proof.
  apply (resetTime_start (mkItem 1%Qc 1%Qc (Q2Qc (-1)) (Q2Qc 2))).
  reflexivity.
Defined.

(** ** Wrapped time *)

Lemma Qfloor_add_Z (x : Q) (k : Z) :
  Qfloor (x + inject_Z k) = (Qfloor x + k)%Z.
Proof.
  destruct x as [n d]. unfold Qfloor, Qplus, inject_Z. cbn [Qnum Qden].
  rewrite Pos.mul_1_r, Z.mul_1_r. apply Z.div_add. discriminate.
Qed.

Lemma Q2Qc_add_Z (a b : Z) :
  Q2Qc (inject_Z (a + b)) = (Q2Qc (inject_Z a) + Q2Qc (inject_Z b))%Qc.
Proof.
  apply Qc_is_canon. cbn [this Qcplus Q2Qc].
  rewrite !Qred_correct. rewrite inject_Z_plus. reflexivity.
Qed.

Lemma Qcfloor_add_Z (x : Qc) (k : Z) :
  Qfloor (x + Q2Qc (inject_Z k))%Qc = (Qfloor x + k)%Z.
Proof.
  rewrite <- Qfloor_add_Z. apply Qfloor_comp.
  cbn [this Qcplus Q2Qc]. rewrite !Qred_correct. reflexivity.
Qed.

Lemma wrapped_shift (d t : Qc) (k : Z) :
  d <> 0%Qc -> wrapped d (t + Q2Qc (inject_Z k) * d) = wrapped d t.
Proof.
  intros Hd. unfold wrapped.
  replace ((t + Q2Qc (inject_Z k) * d) / d)%Qc
    with (t / d + Q2Qc (inject_Z k))%Qc by (field; exact Hd).
  rewrite Qcfloor_add_Z, Q2Qc_add_Z. ring.
Qed.

(** The wrapped time is the remainder: it lies in [[0, duration)]. *)
Lemma wrapped_range (d t : Qc) :
  (0 < d)%Qc -> (0 <= wrapped d t)%Qc /\ (wrapped d t < d)%Qc.
Proof.
  intros Hd. unfold wrapped.
  set (q := (t / d)%Qc). set (F := Q2Qc (inject_Z (Qfloor q))).
  assert (Ht : t = (q * d)%Qc).
  { unfold q. field. apply not_eq_sym, Qclt_not_eq, Hd. }
  assert (HF : (F <= q)%Qc).
  { unfold F, Qcle. cbn [this Q2Qc]. rewrite Qred_correct. apply Qfloor_le. }
  assert (HF1 : (q < F + 1)%Qc).
  { unfold F, Qclt. cbn [this Q2Qc Qcplus]. rewrite !Qred_correct.
    pose proof (Qlt_floor q) as Hq. rewrite inject_Z_plus in Hq. exact Hq. }
  rewrite Ht. replace (q * d - F * d)%Qc with ((q - F) * d)%Qc by ring.
  split.
  - apply Qcmult_nonneg_nonneg; [|apply Qclt_le_weak, Hd].
    apply (Qcplus_le_mono_r _ _ F).
    replace (q - F + F)%Qc with q by ring.
    rewrite Qcplus_0_l. exact HF.
  - rewrite <- (Qcmult_1_l d) at 2. apply Qcmult_lt_compat_r; [exact Hd|].
    apply (Qcplus_lt_mono_r _ _ F).
    replace (q - F + F)%Qc with q by ring.
    rewrite (Qcplus_comm 1 F). exact HF1.
Qed.

(** C8: the wrapped time is periodic in the duration: for a positive
    duration and a whole number [k >= 0] of periods,
    [wrapped( t + k * duration ) == wrapped( t )], exactly. *)
Theorem wrapped_periodic (duration t : Qc) (k : Z) :
  (0 < duration)%Qc -> (0 <= k)%Z ->
  wrapped duration (t + Q2Qc (inject_Z k) * duration) = wrapped duration t.
Proof.
  intros Hd _. apply wrapped_shift. apply not_eq_sym, Qclt_not_eq, Hd.
Qed.

Lemma wrapped_periodic_witness :
  wrapped (Q2Qc 4) (Q2Qc (403 # 200) + Q2Qc (inject_Z 10) * Q2Qc 4)
  = wrapped (Q2Qc 4) (Q2Qc (403 # 200)).
Proof.
  apply (wrapped_periodic (Q2Qc 4) (Q2Qc (403 # 200)) 10);
    [reflexivity | lia].
Defined.

(** "Looped sequence values are correct.": ten durations of four seconds
    and an offset of 2.015 wrap to the offset. *)
Example wrapped_ten_loops :
  this (wrapped (Q2Qc 4) (Q2Qc 10 * Q2Qc 4 + Q2Qc (403 # 200))) = 403 # 200.
Proof. reflexivity. Qed.

(** ** The link protocol *)

Section LinkFacts.
Context {Time : Type} `{TimeOps Time} {Value : Type}.
Implicit Types (st : Store Time Value) (x : Output Value).
Implicit Types (mo : Motion Time Value) (o m : nat).

Lemma linked_empty :
  linked (mkStore (∅ : gmap nat (Output Value))
                  (∅ : gmap nat (Motion Time Value))).
Proof.
  split; intros ? ? ? Hl; cbn in Hl; rewrite lookup_empty in Hl;
    discriminate.
Qed.

Lemma Output_new_linked o v st :
  outputs st !! o = None -> linked st -> linked (Output_new o v st).
Proof.
  intros Hfresh [Ho Hm]. split; cbn.
  - intros o' x m. rewrite lookup_insert. case_decide as Heq.
    + intros [= <-]. discriminate.
    + apply Ho.
  - intros m mo o' Hmo Ht. destruct (Hm m mo o' Hmo Ht) as (x & Hx & Hc).
    exists x. split; [|exact Hc].
    rewrite lookup_insert_ne; [exact Hx|congruence].
Qed.

Lemma Output_destroy_linked o st : linked st -> linked (Output_destroy o st).
Proof.
  intros [Ho Hm]. unfold Output_destroy.
  destruct (outputs st !! o) as [x|] eqn:Hx; [|split; assumption].
  destruct (connection x) as [m0|] eqn:Hc; cbn.
  - destruct (Ho o x m0 Hx Hc) as (mo0 & Hmo0 & Ht0).
    split; cbn.
    + intros o' x' m'. rewrite lookup_delete. case_decide as Heq; [discriminate|].
      intros Hx' Hc'. destruct (Ho o' x' m' Hx' Hc') as (mo' & Hmo' & Ht').
      exists mo'. split; [|exact Ht'].
      rewrite lookup_alter_ne; [exact Hmo'|]. intros ->. congruence.
    + intros m' mo' o'. rewrite lookup_alter. case_decide as Heq.
      * subst m'. rewrite Hmo0. intros [= <-]. discriminate.
      * intros Hmo' Ht'. destruct (Hm m' mo' o' Hmo' Ht') as (x' & Hx' & Hc').
        exists x'. split; [|exact Hc'].
        rewrite lookup_delete_ne; [exact Hx'|]. intros ->. congruence.
  - split; cbn.
    + intros o' x' m'. rewrite lookup_delete. case_decide as Heq; [discriminate|].
      apply Ho.
    + intros m' mo' o' Hmo' Ht'. destruct (Hm m' mo' o' Hmo' Ht') as (x' & Hx' & Hc').
      exists x'. split; [|exact Hc'].
      rewrite lookup_delete_ne; [exact Hx'|]. intros ->. congruence.
Qed.

Lemma Motion_destroy_linked m st : linked st -> linked (Motion_destroy m st).
Proof.
  intros [Ho Hm]. unfold Motion_destroy.
  destruct (motions st !! m) as [mo|] eqn:Hmo; [|split; assumption].
  destruct (target mo) as [o0|] eqn:Ht; cbn.
  - destruct (Hm m mo o0 Hmo Ht) as (x0 & Hx0 & Hc0).
    split; cbn.
    + intros o' x' m'. rewrite lookup_alter. case_decide as Heq.
      * subst o'. rewrite Hx0. intros [= <-]. discriminate.
      * intros Hx' Hc'. destruct (Ho o' x' m' Hx' Hc') as (mo' & Hmo' & Ht').
        exists mo'. split; [|exact Ht'].
        rewrite lookup_delete_ne; [exact Hmo'|]. intros ->. congruence.
    + intros m' mo' o'. rewrite lookup_delete.
      case_decide as Heq; [discriminate|].
      intros Hmo' Ht'. destruct (Hm m' mo' o' Hmo' Ht') as (x' & Hx' & Hc').
      exists x'. split; [|exact Hc'].
      rewrite lookup_alter_ne; [exact Hx'|]. intros ->. congruence.
  - split; cbn.
    + intros o' x' m' Hx' Hc'.
      destruct (Ho o' x' m' Hx' Hc') as (mo' & Hmo' & Ht').
      exists mo'. split; [|exact Ht'].
      rewrite lookup_delete_ne; [exact Hmo'|]. intros ->. congruence.
    + intros m' mo' o'. rewrite lookup_delete.
      case_decide as Heq; [discriminate|]. apply Hm.
Qed.

Lemma Motion_new_linked m o it src st :
  motions st !! m = None -> linked st -> linked (Motion_new m o it src st).
Proof.
  intros Hfresh [Ho Hm]. unfold Motion_new.
  destruct (outputs st !! o) as [x|] eqn:Hx.
  - assert (Hmot : forall m', m' <> m ->
      (forall m0, connection x = Some m0 -> m' <> m0) ->
      motions (on_motions (insert m (mkMotion it src (Some o)))
        (on_outputs (alter (set_connection (Some m)) o)
           (unlink_motion (connection x) st))) !! m' = motions st !! m').
    { intros m' Hne Hne0. cbn. rewrite lookup_insert_ne by congruence.
      destruct (connection x) as [m0|]; cbn; [|reflexivity].
      apply lookup_alter_ne. intros ->. exact (Hne0 _ eq_refl eq_refl). }
    assert (Hout : forall o',
      outputs (on_motions (insert m (mkMotion it src (Some o)))
        (on_outputs (alter (set_connection (Some m)) o)
           (unlink_motion (connection x) st))) !! o'
      = alter (set_connection (Some m)) o (outputs st) !! o').
    { intros o'. destruct (connection x); reflexivity. }
    split.
    + intros o' x' m'. rewrite Hout, lookup_alter. case_decide as Heq.
      * subst o'. rewrite Hx. intros [= <-] [= <-].
        eexists. split; [apply lookup_insert_eq|reflexivity].
      * intros Hx' Hc'. destruct (Ho o' x' m' Hx' Hc') as (mo' & Hmo' & Ht').
        exists mo'. split; [|exact Ht']. rewrite Hmot; [exact Hmo'|congruence|].
        intros m0 Hc0 ->. destruct (Ho o x m0 Hx Hc0) as (? & ? & ?). congruence.
    + intros m' mo' o'. destruct (decide (m' = m)) as [->|Hne].
      * cbn. rewrite lookup_insert_eq. intros [= <-] [= <-].
        exists (set_connection (Some m) x). split; [|reflexivity].
        rewrite Hout, lookup_alter_eq, Hx. reflexivity.
      * destruct (connection x) as [m0|] eqn:Hc0.
        -- cbn. rewrite lookup_insert_ne by congruence. rewrite lookup_alter.
           case_decide as Heq.
           ++ intros (mo1 & _ & ->)%fmap_Some. discriminate.
           ++ intros Hmo' Ht'.
              destruct (Hm m' mo' o' Hmo' Ht') as (x' & Hx' & Hc').
              exists x'. split; [|exact Hc'].
              rewrite lookup_alter_ne; [exact Hx'|]. intros ->. congruence.
        -- cbn. rewrite lookup_insert_ne by congruence. intros Hmo' Ht'.
           destruct (Hm m' mo' o' Hmo' Ht') as (x' & Hx' & Hc').
           exists x'. split; [|exact Hc'].
           rewrite lookup_alter_ne; [exact Hx'|]. intros ->. congruence.
  - split; cbn.
    + intros o' x' m' Hx' Hc'.
      destruct (Ho o' x' m' Hx' Hc') as (mo' & Hmo' & Ht').
      exists mo'. split; [|exact Ht'].
      rewrite lookup_insert_ne; [exact Hmo'|congruence].
    + intros m' mo' o'. rewrite lookup_insert. case_decide as Heq.
      * intros [= <-]. discriminate.
      * apply Hm.
Qed.

Lemma Output_take_lookup dst src xs xd st :
  dst <> src -> outputs st !! src = Some xs -> outputs st !! dst = Some xd ->
  outputs (Output_take dst src st) !! dst
    = Some (mkOutput (value xs) (connection xs)) /\
  outputs (Output_take dst src st) !! src = Some (set_connection None xs) /\
  (forall o, o <> dst -> o <> src ->
     outputs (Output_take dst src st) !! o = outputs st !! o) /\
  (forall m, connection xs = Some m ->
     motions (Output_take dst src st) !! m
     = set_target (Some dst) <$>
         motions (unlink_motion (connection xd) st) !! m) /\
  (forall m, connection xs <> Some m ->
     motions (Output_take dst src st) !! m
     = motions (unlink_motion (connection xd) st) !! m).
Proof.
  intros Hne Hs Hd. unfold Output_take. rewrite decide_False by exact Hne.
  rewrite Hs, Hd.
  assert (Hout : forall st1 : Store Time Value,
    outputs (match connection xs with
             | Some m => on_motions (alter (set_target (Some dst)) m) st1
             | None => st1 end) = outputs st1).
  { intros st1. destruct (connection xs); reflexivity. }
  assert (Hunl : outputs (unlink_motion (connection xd) st) = outputs st).
  { destruct (connection xd); reflexivity. }
  repeat split.
  - rewrite Hout. cbn. rewrite lookup_alter_ne by congruence.
    apply lookup_insert_eq.
  - rewrite Hout. cbn. rewrite lookup_alter_eq.
    rewrite lookup_insert_ne by exact Hne. rewrite Hunl, Hs. reflexivity.
  - intros o Hod Hos. rewrite Hout. cbn.
    rewrite lookup_alter_ne by congruence.
    rewrite lookup_insert_ne by congruence. rewrite Hunl. reflexivity.
  - intros m ->. cbn. apply lookup_alter_eq.
  - intros m Hm. destruct (connection xs) as [ms|]; cbn; [|reflexivity].
    apply lookup_alter_ne. congruence.
Qed.

Lemma unlink_motion_lookup c st m :
  motions (unlink_motion c st) !! m
  = if decide (c = Some m) then set_target None <$> motions st !! m
    else motions st !! m.
Proof.
  destruct c as [m0|]; cbn.
  - rewrite lookup_alter. repeat case_decide; congruence.
  - rewrite decide_False by discriminate. reflexivity.
Qed.

Lemma Output_take_linked dst src st :
  linked st -> linked (Output_take dst src st).
Proof.
  intros Hl. destruct (decide (dst = src)) as [->|Hne].
  { unfold Output_take. rewrite decide_True by reflexivity. exact Hl. }
  destruct (outputs st !! src) as [xs|] eqn:Hs;
    [|unfold Output_take; rewrite decide_False, Hs by exact Hne; exact Hl].
  destruct (outputs st !! dst) as [xd|] eqn:Hd;
    [|unfold Output_take; rewrite decide_False, Hs, Hd by exact Hne; exact Hl].
  destruct (Output_take_lookup dst src xs xd st Hne Hs Hd)
    as (Hdst & Hsrc & Hoth & Hmv & Hmo).
  destruct Hl as [Ho Hm]. split.
  - intros o x m Hx Hc.
    destruct (decide (o = src)) as [->|Hos].
    { rewrite Hsrc in Hx. injection Hx as <-. discriminate. }
    destruct (decide (o = dst)) as [->|Hod].
    + rewrite Hdst in Hx. injection Hx as <-. cbn in Hc.
      destruct (Ho src xs m Hs Hc) as (mo & Hmo' & Ht).
      rewrite (Hmv m Hc), unlink_motion_lookup.
      case_decide; rewrite Hmo'; eexists; (split; [reflexivity|reflexivity]).
    + rewrite Hoth in Hx by assumption.
      destruct (Ho o x m Hx Hc) as (mo & Hmo' & Ht).
      exists mo. split; [|exact Ht].
      rewrite Hmo, unlink_motion_lookup.
      * rewrite decide_False; [exact Hmo'|]. intros Hcd.
        destruct (Ho dst xd m Hd Hcd) as (? & ? & ?). congruence.
      * intros Hcs. destruct (Ho src xs m Hs Hcs) as (? & ? & ?). congruence.
  - intros m mo o Hmo' Ht.
    destruct (decide (connection xs = Some m)) as [Hcs|Hcs].
    + rewrite (Hmv m Hcs) in Hmo'.
      apply fmap_Some in Hmo' as (mo1 & _ & ->). cbn in Ht. injection Ht as <-.
      eexists. split; [exact Hdst|exact Hcs].
    + rewrite (Hmo m Hcs), unlink_motion_lookup in Hmo'.
      case_decide as Hcd.
      { apply fmap_Some in Hmo' as (mo1 & _ & ->). discriminate. }
      destruct (Hm m mo o Hmo' Ht) as (x & Hx & Hc).
      exists x. split; [|exact Hc]. rewrite Hoth; [exact Hx| |]; intros ->; congruence.
Qed.

(** What a clock operation writes. *)
Lemma Motion_update_write m it st mo o x :
  motions st !! m = Some mo -> target mo = Some o ->
  outputs st !! o = Some x ->
  Motion_update m it (Some st)
  = Some (on_outputs (insert o (set_value (producer mo (time it)) x)) st).
Proof.
  intros Hmo Ht Hx. unfold Motion_update. cbn. rewrite Hmo. cbn.
  rewrite Ht, Hx. reflexivity.
Qed.

Lemma Motion_update_idle m it st mo :
  motions st !! m = Some mo -> target mo = None ->
  Motion_update m it (Some st) = Some st.
Proof.
  intros Hmo Ht. unfold Motion_update. cbn. rewrite Hmo. cbn.
  rewrite Ht. reflexivity.
Qed.

Lemma Motion_step_write dt m st mo o x :
  motions st !! m = Some mo -> target mo = Some o ->
  outputs st !! o = Some x ->
  let t' := Tadd (_time (item mo)) (Tmul dt (_speed (item mo))) in
  Motion_step dt m st
  = Some (on_motions
            (alter (set_item (mkItem t' t' (_speed (item mo))
                                (_duration (item mo)))) m)
            (on_outputs (insert o (set_value (producer mo t') x)) st)).
Proof.
  intros Hmo Ht Hx. unfold Motion_step, Motion_clock, step. rewrite Hmo.
  cbn -[Motion_update].
  rewrite (Motion_update_write m _ st mo o x Hmo Ht Hx). reflexivity.
Qed.

Lemma Motion_skipTo_write t m st mo o x :
  motions st !! m = Some mo -> target mo = Some o ->
  outputs st !! o = Some x ->
  Motion_skipTo t m st
  = Some (on_motions
            (alter (set_item (mkItem t t (_speed (item mo))
                                (_duration (item mo)))) m)
            (on_outputs (insert o (set_value (producer mo t) x)) st)).
Proof.
  intros Hmo Ht Hx. unfold Motion_skipTo, Motion_clock, jumpTo. rewrite Hmo.
  cbn -[Motion_update].
  rewrite (Motion_update_write m _ st mo o x Hmo Ht Hx). reflexivity.
Qed.

Lemma Motion_step_idle dt m st mo :
  motions st !! m = Some mo -> target mo = None ->
  let t' := Tadd (_time (item mo)) (Tmul dt (_speed (item mo))) in
  Motion_step dt m st
  = Some (on_motions
            (alter (set_item (mkItem t' t' (_speed (item mo))
                                (_duration (item mo)))) m) st).
Proof.
  intros Hmo Ht. unfold Motion_step, Motion_clock, step. rewrite Hmo.
  cbn -[Motion_update].
  rewrite (Motion_update_idle m _ st mo Hmo Ht). reflexivity.
Qed.

(** Stepping moves clocks and values; the links stay as they are. *)
Lemma same_links_refl st : same_links st st.
Proof. split; reflexivity. Qed.

Lemma same_links_trans st1 st2 st3 :
  same_links st1 st2 -> same_links st2 st3 -> same_links st1 st3.
Proof. intros [a b] [c d]. split; intros; [rewrite c, a|rewrite d, b]; done. Qed.

Lemma same_links_linked st st' : same_links st st' -> linked st -> linked st'.
Proof.
  intros [Hsm Hso] [Ho Hm]. split.
  - intros o x' m Hx' Hc.
    assert (connection <$> outputs st !! o = Some (Some m)) as Hx.
    { rewrite <- Hso, Hx'. cbn. congruence. }
    apply fmap_Some in Hx as (x & Hx & Hcx).
    destruct (Ho o x m Hx (eq_sym Hcx)) as (mo & Hmo & Ht).
    assert (target <$> motions st' !! m = Some (Some o)) as Hmo'.
    { rewrite Hsm, Hmo. cbn. congruence. }
    apply fmap_Some in Hmo' as (mo' & Hmo' & Ht'). eauto.
  - intros m mo' o Hmo' Ht.
    assert (target <$> motions st !! m = Some (Some o)) as Hmo.
    { rewrite <- Hsm, Hmo'. cbn. congruence. }
    apply fmap_Some in Hmo as (mo & Hmo & Htm).
    destruct (Hm m mo o Hmo (eq_sym Htm)) as (x & Hx & Hc).
    assert (connection <$> outputs st' !! o = Some (Some m)) as Hx'.
    { rewrite Hso, Hx. cbn. congruence. }
    apply fmap_Some in Hx' as (x' & Hx' & Hc'). eauto.
Qed.

Lemma same_links_owned tl st st' :
  same_links st st' -> owned tl st -> owned tl st'.
Proof.
  intros [Hsm _] Hown m Hin. destruct (Hown m Hin) as [mo Hmo].
  specialize (Hsm m). rewrite Hmo in Hsm.
  destruct (motions st' !! m); [eauto|discriminate].
Qed.

Lemma same_links_isConnected st st' m :
  same_links st st' -> Motion_isConnected st' m = Motion_isConnected st m.
Proof.
  intros [Hsm _]. unfold Motion_isConnected. specialize (Hsm m).
  destruct (motions st' !! m) as [a|], (motions st !! m) as [b|];
    cbn in Hsm; try discriminate; [|reflexivity].
  injection Hsm as ->. reflexivity.
Qed.

(** With the links in order a step never fails: a connected motion finds
    its slot alive, a disconnected one writes nothing. *)
Lemma Motion_step_total dt m st :
  linked st -> is_Some (motions st !! m) ->
  exists st', Motion_step dt m st = Some st' /\ same_links st st'.
Proof.
  intros [Ho Hm] [mo Hmo]. destruct (target mo) as [o|] eqn:Ht.
  - destruct (Hm m mo o Hmo Ht) as (x & Hx & Hc).
    eexists. split; [apply (Motion_step_write dt m st mo o x Hmo Ht Hx)|].
    split; cbn.
    + intros m'. rewrite lookup_alter. case_decide as Heq; [|reflexivity].
      subst m'. rewrite Hmo. reflexivity.
    + intros o'. rewrite lookup_insert. case_decide as Heq; [|reflexivity].
      subst o'. rewrite Hx. reflexivity.
  - eexists. split; [apply (Motion_step_idle dt m st mo Hmo Ht)|].
    split; cbn; [|reflexivity].
    intros m'. rewrite lookup_alter. case_decide as Heq; [|reflexivity].
    subst m'. rewrite Hmo. reflexivity.
Qed.

Lemma Timeline_run dt tl st :
  linked st -> owned tl st ->
  exists st', foldl (fun w m => w ≫= Motion_step dt m) (Some st) tl = Some st'
              /\ same_links st st'.
Proof.
  revert st. induction tl as [|m tl IH]; intros st Hl Hown.
  - exists st. split; [reflexivity|apply same_links_refl].
  - destruct (Motion_step_total dt m st Hl) as (st1 & Hst1 & Hs1).
    { apply Hown. left. }
    destruct (IH st1) as (st2 & Hst2 & Hs2).
    + exact (same_links_linked st st1 Hs1 Hl).
    + apply (same_links_owned _ st st1 Hs1). intros m' Hin. apply Hown. right. exact Hin.
    + exists st2. split; [|exact (same_links_trans _ _ _ Hs1 Hs2)].
      cbn. rewrite Hst1. exact Hst2.
Qed.

Lemma Output_destroy_lookup o x m mo st :
  outputs st !! o = Some x -> connection x = Some m ->
  motions st !! m = Some mo ->
  motions (Output_destroy o st) !! m = Some (set_target None mo) /\
  outputs (Output_destroy o st) !! o = None /\
  (forall m', is_Some (motions st !! m') ->
              is_Some (motions (Output_destroy o st) !! m')).
Proof.
  intros Hx Hc Hmo. unfold Output_destroy. rewrite Hx, Hc. cbn.
  repeat split.
  - rewrite lookup_alter_eq, Hmo. reflexivity.
  - apply lookup_delete_eq.
  - intros m' Hsome. apply lookup_alter_is_Some. exact Hsome.
Qed.

(** C2: destroying a slot that a motion targets disconnects the motion;
    the motion's next step succeeds without writing to any slot; and the
    next step of a timeline owning the motion succeeds and reaps it, so a
    timeline owning just that motion becomes empty. *)
Theorem Output_destroy_disconnects dt tl o x m st :
  linked st -> owned tl st ->
  outputs st !! o = Some x -> connection x = Some m ->
  Motion_isConnected (Output_destroy o st) m = false /\
  (exists st2, Motion_step dt m (Output_destroy o st) = Some st2 /\
               outputs st2 = outputs (Output_destroy o st)) /\
  (exists tl' st3,
     Timeline_step dt tl (Output_destroy o st) = Some (tl', st3) /\
     (m ∉ tl') /\
     (tl = [m] -> Timeline_empty tl' = true)).
Proof.
  intros Hl Hown Hx Hc.
  destruct (proj1 Hl o x m Hx Hc) as (mo & Hmo & Ht).
  destruct (Output_destroy_lookup o x m mo st Hx Hc Hmo) as (Hm1 & _ & Hdom).
  set (st1 := Output_destroy o st) in *.
  assert (Hoff : Motion_isConnected st1 m = false).
  { unfold Motion_isConnected. rewrite Hm1. reflexivity. }
  split; [exact Hoff|]. split.
  - eexists. split; [apply (Motion_step_idle dt m st1 _ Hm1); reflexivity|].
    reflexivity.
  - destruct (Timeline_run dt tl st1) as (st' & Hrun & Hsame).
    + apply Output_destroy_linked, Hl.
    + intros m' Hin. apply Hdom, Hown, Hin.
    + unfold Timeline_step. rewrite Hrun. cbn.
      assert (Hoff' : Motion_isConnected st' m = false).
      { rewrite (same_links_isConnected st1 st' m Hsame). exact Hoff. }
      eexists _, _. split; [reflexivity|]. split.
      * rewrite list_elem_of_In, filter_In. intros [_ Hon]. congruence.
      * intros ->. cbn. rewrite Hoff'. reflexivity.
Qed.

(** C7: destroying a motion that is still connected clears the
    connection of its target slot: the slot reports disconnected, keeps
    its value, and the motion is gone. *)
Theorem Motion_destroy_disconnects o x m st :
  linked st -> outputs st !! o = Some x -> connection x = Some m ->
  Output_isConnected (Motion_destroy m st) o = false /\
  outputs (Motion_destroy m st) !! o = Some (set_connection None x) /\
  motions (Motion_destroy m st) !! m = None.
Proof.
  intros Hl Hx Hc. destruct (proj1 Hl o x m Hx Hc) as (mo & Hmo & Ht).
  assert (Hout : outputs (Motion_destroy m st) !! o
                 = Some (set_connection None x)).
  { unfold Motion_destroy. rewrite Hmo, Ht. cbn.
    rewrite lookup_alter_eq, Hx. reflexivity. }
  split; [|split; [exact Hout|]].
  - unfold Output_isConnected. rewrite Hout. reflexivity.
  - unfold Motion_destroy. rewrite Hmo. cbn. apply lookup_delete_eq.
Qed.

(** Taking over a connected slot: the taker is connected and holds the
    value, the other slot is disconnected and keeps its value, the motion
    targets the taker, and what the motion computes from then on is
    written into the taker and leaves the other slot as it is. *)
Lemma Output_take_transfers a b xa xb m st :
  linked st -> a <> b ->
  outputs st !! a = Some xa -> outputs st !! b = Some xb ->
  connection xa = Some m ->
  exists mo, motions st !! m = Some mo /\
    Output_isConnected (Output_take b a st) b = true /\
    outputs (Output_take b a st) !! b = Some (mkOutput (value xa) (Some m)) /\
    Output_isConnected (Output_take b a st) a = false /\
    outputs (Output_take b a st) !! a = Some (mkOutput (value xa) None) /\
    target <$> motions (Output_take b a st) !! m = Some (Some b) /\
    (forall t, exists st',
       Motion_skipTo t m (Output_take b a st) = Some st' /\
       outputs st' !! b = Some (mkOutput (producer mo t) (Some m)) /\
       outputs st' !! a = Some (mkOutput (value xa) None)) /\
    (forall dt, exists st',
       Motion_step dt m (Output_take b a st) = Some st' /\
       outputs st' !! b
       = Some (mkOutput
                 (producer mo
                    (Tadd (_time (item mo)) (Tmul dt (_speed (item mo)))))
                 (Some m)) /\
       outputs st' !! a = Some (mkOutput (value xa) None)).
Proof.
  intros Hl Hne Ha Hb Hc.
  destruct (proj1 Hl a xa m Ha Hc) as (mo & Hmo & Ht).
  destruct (Output_take_lookup b a xa xb st (not_eq_sym Hne) Ha Hb)
    as (Hdst & Hsrc & _ & Hmv & _).
  rewrite Hc in Hdst. specialize (Hmv m Hc).
  assert (exists mo', motions (Output_take b a st) !! m = Some mo' /\
            target mo' = Some b /\ item mo' = item mo /\
            producer mo' = producer mo) as (mo' & Hmo' & Ht' & Hi' & Hp').
  { rewrite Hmv, unlink_motion_lookup.
    case_decide; rewrite Hmo; eexists; (split; [reflexivity|]); auto. }
  exists mo. split; [exact Hmo|].
  split. { unfold Output_isConnected. rewrite Hdst. reflexivity. }
  split; [exact Hdst|].
  split. { unfold Output_isConnected. rewrite Hsrc. reflexivity. }
  split; [exact Hsrc|].
  split. { rewrite Hmo'. cbn. rewrite Ht'. reflexivity. }
  split.
  - intros t. eexists. split.
    + apply (Motion_skipTo_write t m _ mo' b _ Hmo' Ht' Hdst).
    + cbn. rewrite lookup_insert_eq, lookup_insert_ne by exact (not_eq_sym Hne).
      rewrite Hp'. split; [reflexivity|exact Hsrc].
  - intros dt. eexists. split.
    + apply (Motion_step_write dt m _ mo' b _ Hmo' Ht' Hdst).
    + cbn. rewrite lookup_insert_eq, lookup_insert_ne by exact (not_eq_sym Hne).
      rewrite Hp', Hi'. split; [reflexivity|exact Hsrc].
Qed.

(** C6: moving a connected slot [a] into [b] transfers the connection:
    [b] is connected and holds [a]'s value, [a] is disconnected, the
    motion targets [b], and every later jump or step of the motion
    writes into [b] and leaves [a] untouched. *)
Theorem Output_move_transfers a b xa xb m st :
  linked st -> a <> b ->
  outputs st !! a = Some xa -> outputs st !! b = Some xb ->
  connection xa = Some m ->
  exists mo, motions st !! m = Some mo /\
    Output_isConnected (Output_move b a st) b = true /\
    outputs (Output_move b a st) !! b = Some (mkOutput (value xa) (Some m)) /\
    Output_isConnected (Output_move b a st) a = false /\
    outputs (Output_move b a st) !! a = Some (mkOutput (value xa) None) /\
    target <$> motions (Output_move b a st) !! m = Some (Some b) /\
    (forall t, exists st',
       Motion_skipTo t m (Output_move b a st) = Some st' /\
       outputs st' !! b = Some (mkOutput (producer mo t) (Some m)) /\
       outputs st' !! a = Some (mkOutput (value xa) None)) /\
    (forall dt, exists st',
       Motion_step dt m (Output_move b a st) = Some st' /\
       outputs st' !! b
       = Some (mkOutput
                 (producer mo
                    (Tadd (_time (item mo)) (Tmul dt (_speed (item mo)))))
                 (Some m)) /\
       outputs st' !! a = Some (mkOutput (value xa) None)).
Proof. apply Output_take_transfers. Qed.

(** C1, as the tests have it: copying a connected slot [a] into [b]
    hands the connection to the copy: [b] holds [a]'s value and is
    connected, the motion targets [b], and every later jump or step of
    the motion writes into [b] while [a] keeps the value it had; the link
    being one-to-one, [a] is left disconnected. *)
Theorem Output_copy_transfers a b xa xb m st :
  linked st -> a <> b ->
  outputs st !! a = Some xa -> outputs st !! b = Some xb ->
  connection xa = Some m ->
  exists mo, motions st !! m = Some mo /\
    Output_isConnected (Output_copy b a st) b = true /\
    outputs (Output_copy b a st) !! b = Some (mkOutput (value xa) (Some m)) /\
    Output_isConnected (Output_copy b a st) a = false /\
    outputs (Output_copy b a st) !! a = Some (mkOutput (value xa) None) /\
    target <$> motions (Output_copy b a st) !! m = Some (Some b) /\
    (forall t, exists st',
       Motion_skipTo t m (Output_copy b a st) = Some st' /\
       outputs st' !! b = Some (mkOutput (producer mo t) (Some m)) /\
       outputs st' !! a = Some (mkOutput (value xa) None)) /\
    (forall dt, exists st',
       Motion_step dt m (Output_copy b a st) = Some st' /\
       outputs st' !! b
       = Some (mkOutput
                 (producer mo
                    (Tadd (_time (item mo)) (Tmul dt (_speed (item mo)))))
                 (Some m)) /\
       outputs st' !! a = Some (mkOutput (value xa) None)).
Proof. apply Output_take_transfers. Qed.

(** The spec's wording of the copy keeps the invariant as well; it is the
    tests that tell the two apart. *)
Lemma Output_copy_spec_keeps_source a b xa xb st :
  a <> b -> outputs st !! a = Some xa -> outputs st !! b = Some xb ->
  outputs (Output_copy_spec b a st) !! a = Some xa /\
  outputs (Output_copy_spec b a st) !! b = Some (mkOutput (value xa) None).
Proof.
  intros Hne Ha Hb. unfold Output_copy_spec.
  rewrite decide_False by exact (not_eq_sym Hne). rewrite Ha, Hb. cbn.
  rewrite lookup_insert_eq, lookup_insert_ne by exact (not_eq_sym Hne).
  split; [|reflexivity]. destruct (connection xb); exact Ha.
Qed.
End LinkFacts.

(** ** The test cases *)

Lemma linked_two_slots : linked two_slots.
Proof.
  apply Motion_new_linked; [reflexivity|].
  apply Output_new_linked; [reflexivity|].
  apply Output_new_linked; [reflexivity|].
  apply linked_empty.
Qed.

Lemma linked_one_slot : linked one_slot.
Proof.
  apply Motion_new_linked; [reflexivity|].
  apply Output_new_linked; [reflexivity|].
  apply linked_empty.
Qed.

(** C1 as stated fails on "Copy assignment brings motion along.": after
    [copy = base] the copy is connected, and [motion.skipTo( 1 )] and
    [motion.skipTo( 2 )] write 5 and 10 into [copy] while [base] stays
    at 1, as the test requires. *)
Lemma Output_copy_takes_motion :
  Output_isConnected two_slots 0 = true /\
  Output_isConnected (Output_copy 1 0 two_slots) 1 = true /\
  read (Motion_skipTo 1%Qc 0 (Output_copy 1 0 two_slots)) 0 = Some 1%Q /\
  read (Motion_skipTo 1%Qc 0 (Output_copy 1 0 two_slots)) 1 = Some 5%Q /\
  read (Motion_skipTo 1%Qc 0 (Output_copy 1 0 two_slots)
          ≫= Motion_skipTo (Q2Qc 2) 0) 1 = Some 10%Q.
Proof. vm_compute. repeat split. Qed.

(** With the copy of the spec's wording the same test fails: the motion
    keeps writing into [base], and [copy] stays at the copied 1. *)
Lemma Output_copy_spec_fails_test :
  read (Motion_skipTo 1%Qc 0 (Output_copy_spec 1 0 two_slots)) 0 = Some 5%Q /\
  read (Motion_skipTo 1%Qc 0 (Output_copy_spec 1 0 two_slots)) 1 = Some 1%Q.
Proof. vm_compute. repeat split. Qed.

(** "Vector of outputs can be copied.": all 500 copies read 5 after the
    timeline stepped by one second, the first original still reads 0. *)
Lemma vector_copy_test :
  values_after_step 1%Qc 500 500 (vector_assign Output_copy 500 (n_slots 500))
    = replicate 500 (Some 5%Q) /\
  head (values_after_step 1%Qc 500 0
          (vector_assign Output_copy 500 (n_slots 500))) = Some (Some 0%Q).
Proof. vm_compute. split; reflexivity. Qed.

(** "Vector of outputs can be moved.": [copy] adopts the 500 slots where
    they are, no slot is moved and no link changes; after the timeline
    stepped by one second they all read 5. *)
Lemma vector_move_test :
  values_after_step 1%Qc 500 0 (n_slots 500) = replicate 500 (Some 5%Q).
Proof. vm_compute. reflexivity. Qed.

(** "Move assignment brings motion along." *)
Lemma move_assignment_test :
  read (Motion_skipTo 1%Qc 0 (Output_move 1 0 two_slots)) 1 = Some 5%Q /\
  read (Motion_skipTo 1%Qc 0 (Output_move 1 0 two_slots)
          ≫= Motion_skipTo (Q2Qc 2) 0) 1 = Some 10%Q.
Proof. vm_compute. split; reflexivity. Qed.

(** "Output falling out of scope disconnects" *)
Lemma output_scope_test :
  Timeline_size [0] = 1 /\
  (Timeline_empty ∘ fst) <$> Timeline_step (Q2Qc (1 # 2)) [0]
                               (Output_destroy 0 one_slot) = Some true.
Proof. vm_compute. split; reflexivity. Qed.

(** Were the slot dropped without severing its link, the motion would be
    left with a dangling target and its next step would write through it:
    the failure [Output_destroy] rules out. *)
Lemma dangling_write_fails :
  Motion_step (Q2Qc (1 # 2)) 0 (on_outputs (delete 0) one_slot) = None /\
  Timeline_step (Q2Qc (1 # 2)) [0] (on_outputs (delete 0) one_slot) = None.
Proof. vm_compute. split; reflexivity. Qed.

(** "Motion falling out of scope disconnects" *)
Lemma motion_scope_test :
  Output_isConnected one_slot 0 = true /\
  Output_isConnected (Motion_destroy 0 one_slot) 0 = false.
Proof. vm_compute. split; reflexivity. Qed.

Lemma Output_copy_transfers_witness :
  Output_isConnected (Output_copy 1 0 two_slots) 1 = true /\
  Output_isConnected (Output_copy 1 0 two_slots) 0 = false.
Proof.
  destruct (Output_copy_transfers 0 1 (mkOutput 1%Qc (Some 0))
              (mkOutput 0%Qc None) 0 two_slots)
    as (mo & _ & Hb & _ & Ha & _).
  - exact linked_two_slots.
  - lia.
  - reflexivity.
  - reflexivity.
  - reflexivity.
  - split; [exact Hb|exact Ha].
Defined.

Lemma Output_move_transfers_witness :
  Output_isConnected (Output_move 1 0 two_slots) 1 = true /\
  Output_isConnected (Output_move 1 0 two_slots) 0 = false.
Proof.
  destruct (Output_move_transfers 0 1 (mkOutput 1%Qc (Some 0))
              (mkOutput 0%Qc None) 0 two_slots)
    as (mo & _ & Hb & _ & Ha & _).
  - exact linked_two_slots.
  - lia.
  - reflexivity.
  - reflexivity.
  - reflexivity.
  - split; [exact Hb|exact Ha].
Defined.

Lemma Output_destroy_disconnects_witness :
  Motion_isConnected (Output_destroy 0 one_slot) 0 = false.
Proof.
  apply (Output_destroy_disconnects (Q2Qc (1 # 2)) [0] 0
           (mkOutput 0%Qc (Some 0)) 0 one_slot).
  - exact linked_one_slot.
  - intros m Hin. apply list_elem_of_singleton in Hin as ->.
    eexists. reflexivity.
  - reflexivity.
  - reflexivity.
Defined.

Lemma Motion_destroy_disconnects_witness :
  Output_isConnected (Motion_destroy 0 one_slot) 0 = false.
Proof.
  apply (Motion_destroy_disconnects 0 (mkOutput 0%Qc (Some 0)) 0 one_slot).
  - exact linked_one_slot.
  - reflexivity.
  - reflexivity.
Defined.

(** * Further properties of the clock *)

(** ** Runs of clock calls *)

Section RunFacts.
Context {Time : Type} `{TimeOps Time} {W : Type}.
Context (update : TimelineItem Time -> W -> W).
Implicit Types (s : TimelineItem Time * W) (ops : list (ClockOp Time)).

Lemma call_frame s op :
  _speed (call update s op).1 = _speed s.1 /\
  _duration (call update s op).1 = _duration s.1 /\
  _previous_time (call update s op).1 = _time (call update s op).1.
Proof.
  destruct s as [[t p sp d] w], op as [dt|t'|]; cbn; try (repeat split; fail).
  unfold resetTime. destruct (forward _); repeat split.
Qed.

Lemma run_snoc ops op s :
  run update (ops ++ [op]) s = call update (run update ops s) op.
Proof. unfold run. apply foldl_snoc. Qed.

(** X1: over any run of [step], [jumpTo] and [resetTime] calls the speed
    and the duration of the item stay what they were, and so does its
    direction; after a run of at least one call, or from a state where
    they already agree, the previous time equals the time. *)
Theorem run_invariant ops s :
  _speed (run update ops s).1 = _speed s.1 /\
  getDuration (run update ops s).1 = getDuration s.1 /\
  forward (run update ops s).1 = forward s.1 /\
  backward (run update ops s).1 = backward s.1 /\
  (ops <> [] \/ previousTime s.1 = time s.1 ->
   previousTime (run update ops s).1 = time (run update ops s).1).
Proof.
  induction ops as [|op ops IH] using rev_ind.
  - repeat split. intros [Hne|Hs]; [contradiction|exact Hs].
  - rewrite run_snoc. destruct IH as (Hsp & Hd & _).
    destruct (call_frame (run update ops s) op) as (Hsp' & Hd' & Hsync).
    unfold forward, backward, getDuration, previousTime, time in *.
    rewrite Hsp', Hd', Hsp. repeat split; [exact Hd|]. intros _. exact Hsync.
Qed.

Lemma resetTime_ext (it it' : TimelineItem Time) :
  _speed it = _speed it' -> _duration it = _duration it' ->
  resetTime it = resetTime it'.
Proof.
  destruct it, it'. cbn. intros -> ->. reflexivity.
Qed.

(** X2: seeking and resetting erase the history of the clock: whatever
    run came before, after [jumpTo( t )] the item is at time and previous
    time [t] with its original speed and duration, after [resetTime()] it
    is what resetting the original item gives, and a second [resetTime()]
    changes nothing. *)
Theorem run_seek_reset ops s t :
  (run update (ops ++ [JumpTo t]) s).1
    = mkItem t t (_speed s.1) (_duration s.1) /\
  (run update (ops ++ [Reset]) s).1 = resetTime s.1 /\
  (run update (ops ++ [Reset; Reset]) s).1 = resetTime s.1.
Proof.
  destruct (run_invariant ops s) as (Hsp & Hd & _).
  unfold getDuration in Hd.
  assert (Hreset : (run update (ops ++ [Reset]) s).1 = resetTime s.1).
  { rewrite run_snoc. apply resetTime_ext; assumption. }
  split; [|split; [exact Hreset|]].
  - rewrite run_snoc. cbn -[run]. unfold set_previous_time, set_time.
    cbn -[run]. rewrite Hsp, Hd. reflexivity.
  - change (ops ++ [Reset; Reset]) with (ops ++ [Reset] ++ [Reset]).
    rewrite app_assoc, run_snoc. cbn [call fst]. rewrite Hreset.
    apply resetTime_ext; apply resetTime_frame.
Qed.

End RunFacts.

(** ** Reset and replay *)

Section ReplayFacts.
Context {Time : Type} `{TimeOps Time}.
Implicit Types (it : TimelineItem Time) (dt t : Time).

(** X3: right after [resetTime()] an item is finished exactly when its
    duration is [<= 0], whether it plays forward or backward: a reset
    item with a positive duration can be played again. *)
Theorem resetTime_finished `{!TimeOrder Time} it :
  (Tleb Tzero (_speed it) = true ->
     isFinished (resetTime it) = Tleb (getDuration it) Tzero) /\
  (Tltb (_speed it) Tzero = true ->
     isFinished (resetTime it) = Tleb (getDuration it) Tzero).
Proof.
  destruct it as [t0 p0 sp d]. unfold isFinished, resetTime, forward, backward.
  cbn. split; intros Hd.
  - rewrite Hd. cbn. destruct (Tltb sp Tzero) eqn:Hb; [|reflexivity].
    apply Tlt_not_le in Hb. congruence.
  - rewrite (Tlt_not_le _ _ Hd). cbn. rewrite Hd. reflexivity.
Qed.

End ReplayFacts.

(** ** Not-a-number and zero in single precision *)

Lemma SFadd_nan_r p e x : SFadd p e x S754_nan = S754_nan.
Proof. destruct x; reflexivity. Qed.
Lemma SFmul_nan_r p e x : SFmul p e x S754_nan = S754_nan.
Proof. destruct x; reflexivity. Qed.
Lemma SFleb_nan_r x : SFleb x S754_nan = false.
Proof. destruct x; reflexivity. Qed.
Lemma SFltb_nan_r x : SFltb x S754_nan = false.
Proof. destruct x; reflexivity. Qed.

Lemma nan_not_finished fs : _time fs = S754_nan -> isFinished fs = false.
Proof.
  destruct fs as [t0 p0 sp d]. cbn. intros ->.
  unfold isFinished, backward. cbn.
  rewrite SFleb_nan_r. destruct (SFltb sp (S754_zero false)); reflexivity.
Qed.

(** X4: in single precision a NaN in the time, in the speed or in [dt]
    makes the time NaN at the next [step], and no later run of steps
    brings it back: the time stays NaN and [isFinished()] stays false. *)
Theorem nan_poisons {W} (update : TimelineItem spec_float -> W -> W)
    (s : TimelineItem spec_float * W) (dt : spec_float) :
  _time s.1 = S754_nan \/ _speed s.1 = S754_nan \/ dt = S754_nan ->
  time (step update dt s).1 = S754_nan /\
  forall dts, time (steps update dts (step update dt s)).1 = S754_nan /\
              isFinished (steps update dts (step update dt s)).1 = false.
Proof.
  intros Hnan.
  assert (Hone : time (step update dt s).1 = S754_nan).
  { destruct s as [[t0 p0 sp d] w]. cbn in *.
    destruct Hnan as [-> | [-> | ->]]; [reflexivity| |].
    - rewrite SFmul_nan_r. apply SFadd_nan_r.
    - apply SFadd_nan_r. }
  split; [exact Hone|]. intros dts.
  assert (Hall : time (steps update dts (step update dt s)).1 = S754_nan).
  { generalize dependent (step update dt s). clear. intros s Hs.
    revert s Hs. induction dts as [|x dts IH]; intros s Hs; [exact Hs|].
    apply IH. destruct s as [[t0 p0 sp d] w]. cbn in *. rewrite Hs. reflexivity. }
  split; [exact Hall|]. apply nan_not_finished. exact Hall.
Qed.

(** X5: in single precision an item is neither [forward()] nor
    [backward()] exactly when its speed is NaN; such an item is tested for
    completion like a forward one ([time >= duration]) but reset like a
    backward one (to the end time).  With any other speed exactly one of
    the two directions holds. *)
Theorem nan_speed_direction fs :
  (forward fs = false /\ backward fs = false <-> _speed fs = S754_nan) /\
  (_speed fs = S754_nan ->
     isFinished fs = Tleb (getDuration fs) (time fs) /\
     time (resetTime fs) = getDuration fs) /\
  (_speed fs <> S754_nan -> forward fs = negb (backward fs)).
Proof.
  destruct fs as [t0 p0 sp d]. unfold forward, backward, isFinished, resetTime.
  cbn. split; [split|split].
  - intros [Hf Hb]. destruct sp as [[]|[]| |[] m e]; cbn in *; congruence.
  - intros ->. split; reflexivity.
  - intros ->. split; reflexivity.
  - intros Hs. destruct sp as [[]|[]| |[] m e]; cbn in *; congruence.
Qed.

(** X6: [step( 0.0f )] in single precision: with a speed of finite size
    the stored time is unchanged (a time of negative zero aside, which
    may become positive zero); with an infinite or NaN speed the product
    [0 * speed] is NaN and so is the time afterwards. *)
Theorem step_zero_binary32 {W} (update : TimelineItem spec_float -> W -> W)
    (s : TimelineItem spec_float * W) :
  (f32_finite (_speed s.1) = true -> _time s.1 <> S754_zero true ->
     time (step update Tzero s).1 = time s.1) /\
  (f32_finite (_speed s.1) = false ->
     time (step update Tzero s).1 = S754_nan).
Proof.
  destruct s as [[t0 p0 sp d] w]. cbn. split.
  - intros Hfin Hnz. destruct sp as [ss|ss| |ss m e]; try discriminate; cbn;
      destruct t0 as [[]|[]| |[] m0 e0]; cbn; try reflexivity;
      try congruence; destruct ss; reflexivity.
  - intros Hinf. destruct sp as [ss|ss| |ss m e]; try discriminate; cbn;
      destruct t0; reflexivity.
Qed.

(** ** Witnesses *)

Lemma run_invariant_witness :
  previousTime (run (produce sequence)
                  [Step (Q2Qc (1 # 2)); Reset; JumpTo 1%Qc]
                  (fresh_item (Q2Qc 2), 0%Qc)).1
  = time (run (produce sequence)
            [Step (Q2Qc (1 # 2)); Reset; JumpTo 1%Qc]
            (fresh_item (Q2Qc 2), 0%Qc)).1.
Proof.
  apply (run_invariant (produce sequence)
           [Step (Q2Qc (1 # 2)); Reset; JumpTo 1%Qc]
           (fresh_item (Q2Qc 2), 0%Qc)).
  left. discriminate.
Defined.

Lemma resetTime_finished_witness :
  isFinished (resetTime (mkItem 1%Qc 1%Qc (Q2Qc (-1)) (Q2Qc 2)))
  = Tleb (Q2Qc 2) Tzero.
Proof.
  apply (resetTime_finished (mkItem 1%Qc 1%Qc (Q2Qc (-1)) (Q2Qc 2))).
  reflexivity.
Defined.

Lemma nan_poisons_witness :
  time (step (produce id) f32_one
          (mkItem f32_one f32_one S754_nan f32_two, f32_one)).1 = S754_nan.
Proof.
  apply (nan_poisons (produce id)
           (mkItem f32_one f32_one S754_nan f32_two, f32_one) f32_one).
  right. left. reflexivity.
Defined.

Lemma nan_speed_direction_witness :
  time (resetTime (mkItem f32_one f32_one S754_nan f32_two)) = f32_two.
Proof.
  apply (nan_speed_direction (mkItem f32_one f32_one S754_nan f32_two)).
  reflexivity.
Defined.

Lemma step_zero_binary32_witness :
  time (step (produce id) Tzero (late_item, f32_one)).1 = f32_2p24.
Proof.
  apply (step_zero_binary32 (produce id) (late_item, f32_one));
    [reflexivity|discriminate].
Defined.
